(** * The DNS-over-HTTPS name server of app/dns/nameserver_doh.go

    A shallow embedding of the record store, the expiry sweeper, the merge of
    decoded replies, the request-identifier generator, the cache lookup and
    the resolution loop of [DoHNameServer], and the properties of them that
    the specification states. *)

From Stdlib Require Import ZArith Lia Ascii.
From stdpp Require Import base gmap strings list fin_maps.

Local Open Scope Z_scope.

(** ** Data model *)

(** [time.Time]: instants on a line; [Expire.Before(now)] is [<]. *)
Definition Time := Z.

Definition Before (t u : Time) : bool := t <? u.

(** [net.IP] is a byte slice. *)
Definition net_IP := list Byte.byte.

Definition IPv6len : nat := 16.

(** Modelled from the spec: [net.Address] (package common/net, outside the
    sources at hand). An answer holds "resolved network addresses"; the
    address is represented by the bytes its [IP()] method returns. *)
Inductive Address := IPAddress (ip : net_IP).

Definition Address_IP (a : Address) : net_IP :=
  match a with IPAddress ip => ip end.

(** [dnsmessage.Type] is a 16-bit number; the two record types used here. *)
Definition TypeA : Z := 1.
Definition TypeAAAA : Z := 28.

(** What [ctx.Err()] returns once the context is done. *)
Inductive ContextError := Canceled | DeadlineExceeded.

Inductive error :=
  | errRecordNotFound
  | ErrEmptyResponse
  | errNothingToDo            (* "nothing to do. stopping..." *)
  | errResolveItself          (* "... tries to resolve itself! ..." *)
  | context_error (c : ContextError)
  | errPackMessage
  | errRetrieve               (* an error of dohHTTPSContext *)
  | errParseResponse.

Global Instance ContextError_eq_dec : EqDecision ContextError.
Proof. solve_decision. Defined.

Global Instance error_eq_dec : EqDecision error.
Proof. solve_decision. Defined.

(** Modelled from the spec: the type [IPRecord] (declared outside the sources
    at hand), the spec's FamilyAnswer: the 16-bit sequence number of the query
    that produced the answer, its addresses, and the instant it expires. The
    fields [IP] and [Expire] are the ones the source reads. *)
Record IPRecord := mkIPRecord {
  requestSequence : Z;
  IP : list Address;
  Expire : Time
}.

(** The type [record]: one optional answer per family ([nil] is [None]). *)
Record record := mkRecord {
  A : option IPRecord;
  AAAA : option IPRecord
}.

(** [dns_feature.IPOption], the two flags the source reads. *)
Record IPOption := mkIPOption {
  IPv4Enable : bool;
  IPv6Enable : bool
}.

(** Modelled from the spec: the type [dnsRequest] (declared outside the
    sources at hand), the spec's PendingRequest: family, domain, start time
    and the wire query, of which the identifier and the client-subnet hint
    are kept. *)
Record dnsRequest := mkDnsRequest {
  reqType : Z;
  domain : string;
  start : Time;
  msg_ID : Z;
  msg_clientIP : option net_IP
}.

Inductive DNSLogStatus := DNSQueried | DNSCacheHit.

(** What the server writes to the log: the [newError(...).WriteToLog()]
    messages and the [log.Record] entries. Elapsed times are left out. *)
Inductive LogEntry :=
  | LogCleanup (name domain : string)
  | LogGotAnswer (name domain : string) (reqType : Z) (ip : list Address)
  | LogQuerying (name domain : string)
  | LogResolveItself (name : string)
  | LogFailedPack (domain : string) (e : error)
  | LogFailedRetrieve (domain : string) (e : error)
  | LogFailedHandle (domain : string) (e : error)
  | LogCacheDisabled (domain name : string)
  | LogCacheHit (name domain : string) (ips : list net_IP) (err : option error)
  | DNSLog (Server Domain : string) (Result : list net_IP)
           (Status : DNSLogStatus) (Error : option error).

Inductive Severity := AtDebug | AtInfo | AtWarning | AtError.

(** The severity of a message written with [WriteToLog]; the entries of
    [log.Record] have none. *)
Definition severity (e : LogEntry) : option Severity :=
  match e with
  | LogCleanup _ _ => Some AtDebug
  | LogGotAnswer _ _ _ _ => Some AtInfo
  | LogQuerying _ _ => Some AtInfo
  | LogResolveItself _ => Some AtError
  | LogFailedPack _ _ => Some AtError
  | LogFailedRetrieve _ _ => Some AtError
  | LogFailedHandle _ _ => Some AtError
  | LogCacheDisabled _ _ => Some AtDebug
  | LogCacheHit _ _ _ _ => Some AtDebug
  | DNSLog _ _ _ _ _ => None
  end.

(** Calls on the [pubsub.Service] (package common/signal/pubsub), in order. *)
Inductive PubSubCall :=
  | Subscribe (topic : string)
  | Publish (topic : string)
  | SubscriberClose (topic : string).

(** [DoHNameServer]. [ips], [reqID], [dohURL] and [name] are the fields of the
    source. The effects of the methods on their collaborators are kept as
    traces: [pub] the calls on the pubsub service, [dispatched] the queries
    handed to their own goroutine, [logged] the log. The lock, the HTTP client
    and the periodic task are not represented: every method below is one
    critical section or a sequence of them. *)
Record DoHNameServer := mkDoHNameServer {
  ips : gmap string record;
  pub : list PubSubCall;
  reqID : Z;
  dohURL : string;
  name : string;
  dispatched : list dnsRequest;
  logged : list LogEntry
}.

Definition set_ips (m : gmap string record) (s : DoHNameServer) :=
  mkDoHNameServer m (pub s) (reqID s) (dohURL s) (name s) (dispatched s) (logged s).

Definition set_reqID (n : Z) (s : DoHNameServer) :=
  mkDoHNameServer (ips s) (pub s) n (dohURL s) (name s) (dispatched s) (logged s).

Definition call_pub (c : PubSubCall) (s : DoHNameServer) :=
  mkDoHNameServer (ips s) (pub s ++ [c]) (reqID s) (dohURL s) (name s)
                  (dispatched s) (logged s).

Definition go (r : dnsRequest) (s : DoHNameServer) :=
  mkDoHNameServer (ips s) (pub s) (reqID s) (dohURL s) (name s)
                  (dispatched s ++ [r]) (logged s).

Definition WriteToLog (e : LogEntry) (s : DoHNameServer) :=
  mkDoHNameServer (ips s) (pub s) (reqID s) (dohURL s) (name s)
                  (dispatched s) (logged s ++ [e]).

(** [net/url.URL], as far as [baseDOHNameServer] reads it. *)
Record URL := mkURL {
  URL_Host : string;
  URL_String : string
}.

Definition baseDOHNameServer (url : URL) (prefix : string) : DoHNameServer :=
  {| ips := ∅;
     pub := [];
     reqID := 0;
     dohURL := URL_String url;
     name := prefix +:+ "//" +:+ URL_Host url;
     dispatched := [];
     logged := [] |}.

(** ** Cleanup *)

(** One family slot in the loop of [Cleanup]:
    [if record.A != nil && record.A.Expire.Before(now) { record.A = nil }]. *)
Definition clear_expired (now : Time) (slot : option IPRecord) : option IPRecord :=
  match slot with
  | Some a => if Before (Expire a) now then None else Some a
  | None => None
  end.

(** The body of the loop of [Cleanup] for one entry of the map. *)
Definition Cleanup_entry (now : Time) (name : string) (domain : string)
    (rec : record) (acc : gmap string record * list LogEntry)
    : gmap string record * list LogEntry :=
  let rec := mkRecord (clear_expired now (A rec)) (clear_expired now (AAAA rec)) in
  match A rec, AAAA rec with
  | None, None => (delete domain acc.1, acc.2 ++ [LogCleanup name domain])
  | _, _ => (<[domain := rec]> acc.1, acc.2)
  end.

(** [Cleanup]: the error it returns and the server after it. The loop ranges
    over the entries of the map and changes only the entry it is at, so that
    each entry is visited once. Replacing an empty map by a new empty map, at
    the end, changes nothing here. The order of the log lines of one run
    follows the order of the range. *)
Definition Cleanup (now : Time) (s : DoHNameServer) : option error * DoHNameServer :=
  if (size (ips s) =? 0)%nat then (Some errNothingToDo, s)
  else
    let acc := map_fold (Cleanup_entry now (name s)) (ips s, logged s) (ips s) in
    (None, mkDoHNameServer acc.1 (pub s) (reqID s) (dohURL s) (name s)
                           (dispatched s) acc.2).

(** ** updateIP *)

Definition uint16 (x : Z) : Z := x mod 2 ^ 16.

(** A 16-bit difference read as a signed number. *)
Definition int16 (x : Z) : Z :=
  let u := x mod 2 ^ 16 in
  if u <? 2 ^ 15 then u else u - 2 ^ 16.

(** Modelled from the spec: the function [isNewer] (defined outside the
    sources at hand), the spec's Freshness Guard: "candidate supersedes
    current if current == nil or (candidate.requestSequence -
    current.requestSequence) is positive under wraparound", the difference
    taken modulo 2^16 and read as signed. *)
Definition isNewer (baseRec : option IPRecord) (newRec : IPRecord) : bool :=
  match baseRec with
  | None => true
  | Some b => 0 <? int16 (requestSequence newRec - requestSequence b)
  end.

(** The loop of the AAAA case of [updateIP]:
    [if len(ip.IP()) == net.IPv6len { addr = append(addr, ip) }]. *)
Definition only_IPv6len (l : list Address) : list Address :=
  filter (λ ip, length (Address_IP ip) = IPv6len) l.

(** [updateIP], from [s.Lock()] to [s.Unlock()]. The record found in the map
    is shared with the map, so that assigning a slot of it changes the map at
    once; this happens only in the branches that also set [updated]. The
    start of the periodic cleanup task that follows the critical section
    belongs to package task and is not represented; the sweep it schedules is
    [Cleanup]. *)
Definition updateIP (req : dnsRequest) (ipRec : IPRecord) (s : DoHNameServer)
    : DoHNameServer :=
  let rec := default (mkRecord None None) (ips s !! domain req) in
  let '(rec, ipRec, updated) :=
    if reqType req =? TypeA then
      if isNewer (A rec) ipRec
      then (mkRecord (Some ipRec) (AAAA rec), ipRec, true)
      else (rec, ipRec, false)
    else if reqType req =? TypeAAAA then
      let addr := only_IPv6len (IP ipRec) in
      let ipRec := mkIPRecord (requestSequence ipRec) addr (Expire ipRec) in
      if isNewer (AAAA rec) ipRec
      then (mkRecord (A rec) (Some ipRec), ipRec, true)
      else (rec, ipRec, false)
    else (rec, ipRec, false) in
  let s := WriteToLog (LogGotAnswer (name s) (domain req) (reqType req) (IP ipRec)) s in
  let s := if updated : bool then set_ips (<[domain req := rec]> (ips s)) s else s in
  if reqType req =? TypeA then call_pub (Publish (domain req +:+ "4")) s
  else if reqType req =? TypeAAAA then call_pub (Publish (domain req +:+ "6")) s
  else s.

(** ** newReqID *)

(** [uint16(atomic.AddUint32(&s.reqID, 1))]: the 32-bit counter is
    incremented with wrap-around and its new value truncated to 16 bits. *)
Definition newReqID (s : DoHNameServer) : Z * DoHNameServer :=
  let n := (reqID s + 1) mod 2 ^ 32 in
  (uint16 n, set_reqID n s).

(** ** sendQuery *)

(** Modelled from the spec: the function [buildReqMsgs] (defined outside the
    sources at hand): "one wire-format DNS query per family", IPv4 first,
    each with "a fresh request identifier" from the generator and the
    client-subnet hint. *)
Definition buildReqMsgs (now : Time) (domain : string) (option : IPOption)
    (clientIP : Datatypes.option net_IP) (s : DoHNameServer)
    : list dnsRequest * DoHNameServer :=
  let '(reqs, s) :=
    if IPv4Enable option then
      let '(id, s) := newReqID s in
      ([mkDnsRequest TypeA domain now id clientIP], s)
    else ([], s) in
  if IPv6Enable option then
    let '(id, s) := newReqID s in
    (reqs ++ [mkDnsRequest TypeAAAA domain now id clientIP], s)
  else (reqs, s).

(** [sendQuery] up to the start of the goroutines: each request built is
    handed to a goroutine of its own ([go]). What a goroutine does when its
    query finishes is [query_task]. The deadline given to the goroutines is
    not represented. *)
Definition sendQuery (now : Time) (domain : string) (clientIP : option net_IP)
    (option : IPOption) (s : DoHNameServer) : DoHNameServer :=
  let s := WriteToLog (LogQuerying (name s) domain) s in
  if String.eqb (name s +:+ ".") ("DOH//" +:+ domain) then
    WriteToLog (LogResolveItself (name s)) s
  else
    let '(reqs, s) := buildReqMsgs now domain option clientIP s in
    foldl (λ s r, go r s) s reqs.

(** How the query of one goroutine ends: packing fails, the HTTP exchange
    fails, the response does not parse, or it parses to an answer. *)
Inductive outcome :=
  | PackFailed (err : error)
  | RetrieveFailed (err : error)
  | ParseFailed (err : error)
  | Parsed (rec : IPRecord).

(** The body of the goroutine of [sendQuery] for request [r], given how its
    query ends. The closure's [domain] is the request's. *)
Definition query_task (r : dnsRequest) (o : outcome) (s : DoHNameServer)
    : DoHNameServer :=
  match o with
  | PackFailed err => WriteToLog (LogFailedPack (domain r) err) s
  | RetrieveFailed err => WriteToLog (LogFailedRetrieve (domain r) err) s
  | ParseFailed err => WriteToLog (LogFailedHandle (domain r) err) s
  | Parsed rec => updateIP r rec s
  end.

(** ** findIPsForDomain *)

(** Modelled from the spec: the method [getIPs] of [*IPRecord] (defined
    outside the sources at hand). The spec reads an answer's addresses as
    they are cached and gives the absent slot a defined behaviour: "absent"
    yields no addresses, no error. *)
Definition getIPs (r : Datatypes.option IPRecord)
    : list Address * Datatypes.option error :=
  match r with
  | None => ([], None)
  | Some r => (IP r, None)
  end.

(** Modelled from the spec: the function [toNetIP] (defined outside the
    sources at hand), which turns the resolved addresses into the [net.IP]
    values that the lookup returns. *)
Definition toNetIP (addrs : list Address) : list net_IP * Datatypes.option error :=
  (Address_IP <$> addrs, None).

Definition findIPsForDomain (domain : string) (option : IPOption)
    (s : DoHNameServer) : list net_IP * Datatypes.option error :=
  match ips s !! domain with
  | None => ([], Some errRecordNotFound)
  | Some record =>
    let '(ips, err4) :=
      if IPv4Enable option then getIPs (A record) else ([], None) in
    let '(ips, err6) :=
      if IPv6Enable option then
        let '(ip6, err6) := getIPs (AAAA record) in (ips ++ ip6, err6)
      else (ips, None) in
    if (0 <? length ips)%nat then toNetIP ips
    else
      match err4, err6 with
      | Some e, _ => ([], Some e)
      | None, Some e => ([], Some e)
      | None, None =>
        if (IPv4Enable option && bool_decide (A record ≠ None))
           || (IPv6Enable option && bool_decide (AAAA record ≠ None))
        then ([], Some ErrEmptyResponse)
        else ([], Some errRecordNotFound)
      end
  end.

(** ** QueryIP *)

Fixpoint HasSuffix_dot (s : string) : bool :=
  match s with
  | EmptyString => false
  | String c EmptyString => Ascii.eqb c "."%char
  | String _ s' => HasSuffix_dot s'
  end.

(** Modelled from the spec: the function [Fqdn] (defined outside the sources
    at hand): the "trailing-dot normalized form" of a domain name. *)
Definition Fqdn (domain : string) : string :=
  if HasSuffix_dot domain then domain else domain +:+ ".".

(** What other goroutines do to the server while a call of [QueryIP] is
    blocked: a dispatched query (of this call or of another) finishes, or the
    periodic task runs [Cleanup]. *)
Inductive event :=
  | QueryFinished (r : dnsRequest) (o : outcome)
  | CleanupRun (now : Time).

Definition happen (s : DoHNameServer) (e : event) : DoHNameServer :=
  match e with
  | QueryFinished r o => query_task r o s
  | CleanupRun now => (Cleanup now s).2
  end.

(** The case taken by the [select] of the loop of [QueryIP]. *)
Inductive select_case :=
  | ctx_Done (err : ContextError)
  | done.

(** One passage through the [select]: what happened while the call was
    blocked there, and the case that fired. *)
Record round := mkRound {
  arrivals : list event;
  selected : select_case
}.

(** The [for] loop of [QueryIP]. The rounds are the environment's schedule;
    when they run out with the lookup still a miss, the call is still blocked
    ([None]). *)
Fixpoint QueryIP_loop (domain fqdn : string) (option : IPOption)
    (rounds : list round) (s : DoHNameServer)
    : Datatypes.option (list net_IP * Datatypes.option error * DoHNameServer) :=
  let '(ips, err) := findIPsForDomain fqdn option s in
  if bool_decide (err ≠ Some errRecordNotFound) then
    Some (ips, err, WriteToLog (DNSLog (name s) domain ips DNSQueried err) s)
  else
    match rounds with
    | [] => None
    | r :: rounds =>
      let s := foldl happen s (arrivals r) in
      match selected r with
      | ctx_Done err => Some ([], Some (context_error err), s)
      | done => QueryIP_loop domain fqdn option rounds s
      end
    end.

(** [QueryIP]: the addresses and the error it returns, and the server when it
    returns. [now] is the instant of the dispatch. The deferred closing of the
    subscribers runs on every return after the subscriptions, last
    subscribed first. *)
Definition QueryIP (now : Time) (rounds : list round) (domain : string)
    (clientIP : Datatypes.option net_IP) (option : IPOption)
    (disableCache : bool) (s : DoHNameServer)
    : Datatypes.option (list net_IP * Datatypes.option error * DoHNameServer) :=
  let fqdn := Fqdn domain in
  let '(hit, s) :=
    if disableCache then
      (None, WriteToLog (LogCacheDisabled domain (name s)) s)
    else
      let '(ips, err) := findIPsForDomain fqdn option s in
      if bool_decide (err ≠ Some errRecordNotFound) then
        (Some (ips, err),
         WriteToLog (DNSLog (name s) domain ips DNSCacheHit err)
           (WriteToLog (LogCacheHit (name s) domain ips err) s))
      else (None, s) in
  match hit with
  | Some (ips, err) => Some (ips, err, s)
  | None =>
    let s := if IPv4Enable option then call_pub (Subscribe (fqdn +:+ "4")) s else s in
    let s := if IPv6Enable option then call_pub (Subscribe (fqdn +:+ "6")) s else s in
    let s := sendQuery now fqdn clientIP option s in
    match QueryIP_loop domain fqdn option rounds s with
    | None => None
    | Some (ips, err, s) =>
      let s := if IPv6Enable option then call_pub (SubscriberClose (fqdn +:+ "6")) s else s in
      let s := if IPv4Enable option then call_pub (SubscriberClose (fqdn +:+ "4")) s else s in
      Some (ips, err, s)
    end
  end.

(** ** Notions used to state the properties *)

(** The answer cached for a domain and a family, if any. *)
Definition cached (t : Z) (domain : string) (s : DoHNameServer)
    : Datatypes.option IPRecord :=
  r ← ips s !! domain;
  if t =? TypeA then A r else if t =? TypeAAAA then AAAA r else None.

(** The cached answers of the requested families, IPv4 first. *)
Definition requested (option : IPOption) (domain : string) (s : DoHNameServer)
    : list IPRecord :=
  match ips s !! domain with
  | None => []
  | Some r =>
    (if IPv4Enable option then option_list (A r) else [])
    ++ (if IPv6Enable option then option_list (AAAA r) else [])
  end.

(** What a sweep at [now] leaves of one record: its unexpired answers, or
    nothing when there is none. *)
Definition swept (now : Time) (r : record) : Datatypes.option record :=
  match clear_expired now (A r), clear_expired now (AAAA r) with
  | None, None => None
  | a, aaaa => Some (mkRecord a aaaa)
  end.

(** An answer whose expiry has not passed at [now]. *)
Definition live (now : Time) (a : IPRecord) : Prop := now ≤ Expire a.

(** The topic of a request: its domain followed by the tag of its family. *)
Definition topic (req : dnsRequest) : string :=
  domain req +:+ (if reqType req =? TypeA then "4" else "6").

(** The errors with which the rounds end the caller's context. *)
Definition cancellations (rounds : list round) : list ContextError :=
  omap (λ r, match selected r with ctx_Done c => Some c | done => None end) rounds.

(** What the loop can return: addresses and no error, the empty-response
    condition, or the error of the caller's context. *)
Definition returned (rounds : list round) (ips : list net_IP)
    (err : Datatypes.option error) : Prop :=
  (ips ≠ [] ∧ err = None)
  ∨ (ips = [] ∧ err = Some ErrEmptyResponse)
  ∨ (ips = [] ∧ ∃ c, err = Some (context_error c) ∧ c ∈ cancellations rounds).

(** ** Examples *)

Module Ex.
Import Byte.

Definition v4 : Address := IPAddress [x5d; xb8; xd8; x22].
Definition v6 : Address := IPAddress (replicate 16 x01).

Definition both : IPOption := mkIPOption true true.
Definition only4 : IPOption := mkIPOption true false.
Definition only6 : IPOption := mkIPOption false true.

(** A remote server for the endpoint dns.example, nothing cached. *)
Definition fresh : DoHNameServer :=
  baseDOHNameServer (mkURL "dns.example" "https://dns.example/dns-query") "DOH".

Definition reqA : dnsRequest := mkDnsRequest TypeA "example.com." 0 5 None.
Definition reqAAAA : dnsRequest := mkDnsRequest TypeAAAA "example.com." 0 6 None.

(** example.com. has an A answer of sequence 5 that expires at 300. *)
Definition withA : DoHNameServer := updateIP reqA (mkIPRecord 5 [v4] 300) fresh.

(** The record of example.com. in [withA]. *)
Definition recA : record := mkRecord (Some (mkIPRecord 5 [v4] 300)) None.

(** In addition, an empty AAAA answer that expires at 200. *)
Definition withEmptyAAAA : DoHNameServer :=
  updateIP reqAAAA (mkIPRecord 6 [] 200) withA.

(** A reply to an older query: sequence 3, issued before sequence 5. *)
Definition stale : IPRecord := mkIPRecord 3 [] 900.

(** While the call is blocked, the A query fails in the HTTP exchange; then
    the deadline of the caller's context passes. *)
Definition failed_then_deadline : round :=
  mkRound [QueryFinished reqA (RetrieveFailed errRetrieve)]
          (ctx_Done DeadlineExceeded).

(** An AAAA reply that carries a 4-byte address among its addresses. *)
Definition mixed : IPRecord := mkIPRecord 7 [v4; v6] 400.
End Ex.

(** ** Further code and notions *)

(** [newReqID] called [n] times in a row: the identifiers in the order they
    are returned, and the server after the calls. *)
Fixpoint newReqIDs (n : nat) (s : DoHNameServer) : list Z * DoHNameServer :=
  match n with
  | O => ([], s)
  | S n =>
    let '(id, s) := newReqID s in
    let '(ids, s) := newReqIDs n s in
    (id :: ids, s)
  end.

(** What [dohHTTPSContext] can fail with. *)
Inductive transportError :=
  | errNewRequest                       (* the error of http.NewRequest *)
  | errDo                               (* the error of the client's Do *)
  | errReturnedCode (StatusCode : Z)    (* "DOH server returned code %d" *)
  | errReadAll.                         (* the error of io.ReadAll *)

(** An [http.Response], as far as [dohHTTPSContext] reads it: the status
    code, the bytes that reading the body gives, and whether the reading ends
    in an error. *)
Record Response := mkResponse {
  StatusCode : Z;
  Body : list Byte.byte;
  Body_fails : bool
}.

Definition StatusOK : Z := 200.

(** [dohHTTPSContext], given what the HTTP library does with the request:
    whether building the request fails, and the response of the exchange
    ([None] when the exchange fails). *)
Definition dohHTTPSContext (newRequest_fails : bool) (Do : Datatypes.option Response)
    : list Byte.byte * Datatypes.option transportError :=
  if newRequest_fails then ([], Some errNewRequest)
  else
    match Do with
    | None => ([], Some errDo)
    | Some resp =>
      if negb (StatusCode resp =? StatusOK)
      then ([], Some (errReturnedCode (StatusCode resp)))
      else (Body resp, if Body_fails resp then Some errReadAll else None)
    end.

(** The goroutine of [sendQuery] for request [r], stage by stage: the packing
    of the message ([None] when it fails), the exchange of
    [dohHTTPSContext], and the parsing of the response body by
    [parseResponse]. *)
Definition query_goroutine (r : dnsRequest) (pack : Datatypes.option (list Byte.byte))
    (newRequest_fails : bool) (Do : Datatypes.option Response)
    (parseResponse : list Byte.byte → IPRecord + error)
    (s : DoHNameServer) : DoHNameServer :=
  match pack with
  | None => query_task r (PackFailed errPackMessage) s
  | Some b =>
    match dohHTTPSContext newRequest_fails Do with
    | (_, Some _) => query_task r (RetrieveFailed errRetrieve) s
    | (resp, None) =>
      match parseResponse resp with
      | inr err => query_task r (ParseFailed err) s
      | inl rec => query_task r (Parsed rec) s
      end
    end
  end.

(** What happens to a server over time: an event, or a call of [QueryIP]
    that returns (a call still blocked at the end of its rounds is left
    out). *)
Inductive op :=
  | op_event (e : event)
  | op_QueryIP (now : Time) (rounds : list round) (domain : string)
               (clientIP : Datatypes.option net_IP) (option : IPOption)
               (disableCache : bool).

Definition run_op (s : DoHNameServer) (o : op) : DoHNameServer :=
  match o with
  | op_event e => happen s e
  | op_QueryIP now rounds domain clientIP option disableCache =>
    match QueryIP now rounds domain clientIP option disableCache s with
    | Some (_, _, s') => s'
    | None => s
    end
  end.

(** A record that holds an answer. *)
Definition record_nonempty (r : record) : Prop := A r ≠ None ∨ AAAA r ≠ None.

(** A record whose AAAA answer, if it has one, holds addresses of 16 bytes
    only. *)
Definition record_IPv6len (r : record) : Prop :=
  ∀ a, AAAA r = Some a → Forall (λ ip, length (Address_IP ip) = IPv6len) (IP a).

(** The events of the rounds, in the order they happen. *)
Definition events_of (rounds : list round) : list event :=
  rounds ≫= arrivals.

(** The subscriptions to a topic that are open after the calls [l]: those
    made less those closed. *)
Fixpoint open_subscriptions (topic : string) (l : list PubSubCall) : Z :=
  match l with
  | [] => 0
  | Subscribe t :: l =>
    (if String.eqb t topic then 1 else 0) + open_subscriptions topic l
  | SubscriberClose t :: l =>
    open_subscriptions topic l - (if String.eqb t topic then 1 else 0)
  | Publish _ :: l => open_subscriptions topic l
  end.

Module Ex2.
Import Byte.

(** A reply whose A answer has long expired. *)
Definition old : DoHNameServer :=
  updateIP (mkDnsRequest TypeA "old.example." 0 9 None) (mkIPRecord 9 [Ex.v4] 100)
           Ex.withEmptyAAAA.

(** A local server for the endpoint dns.example. *)
Definition local : DoHNameServer :=
  baseDOHNameServer (mkURL "dns.example" "https://dns.example/dns-query") "DOHL".

Definition answer : IPRecord := mkIPRecord 8 [Ex.v4] 500.

Definition parse_answer (b : list byte) : IPRecord + error := inl answer.

Definition reply_then_done : round :=
  mkRound [QueryFinished Ex.reqA (Parsed answer)] done.
End Ex2.

(** * Properties *)

(** ** The sweeper *)

Lemma clear_expired_live now slot a :
  clear_expired now slot = Some a → slot = Some a ∧ live now a.
Proof.
  destruct slot as [b|]; simpl; [|done].
  unfold Before, live. destruct (Z.ltb_spec (Expire b) now); [done|].
  intros [= ->]. split; [done | lia].
Qed.

Lemma clear_expired_idemp now slot :
  clear_expired now (clear_expired now slot) = clear_expired now slot.
Proof.
  destruct slot as [b|]; simpl; [|done].
  destruct (Before (Expire b) now) eqn:E; simpl; [done | by rewrite E].
Qed.

Lemma swept_idemp now r r' : swept now r = Some r' → swept now r' = Some r'.
Proof.
  unfold swept. intros H.
  assert (A r' = clear_expired now (A r) ∧ AAAA r' = clear_expired now (AAAA r))
    as [HA H6].
  { destruct (clear_expired now (A r)), (clear_expired now (AAAA r));
      by simplify_eq. }
  rewrite HA, H6, !clear_expired_idemp.
  rewrite <- HA, <- H6 in *.
  destruct r' as [[?|] [?|]]; simpl in *; done.
Qed.

Lemma Cleanup_entry_fst now nm d r acc :
  (Cleanup_entry now nm d r acc).1 =
    match swept now r with
    | Some r' => <[d := r']> acc.1
    | None => delete d acc.1
    end.
Proof.
  unfold Cleanup_entry, swept. simpl.
  by destruct (clear_expired now (A r)), (clear_expired now (AAAA r)).
Qed.

(** The loop of [Cleanup] visits each entry once: the entries of the map
    ranged over are swept, the other entries of the map written to stay. *)
Lemma Cleanup_loop_lookup now nm (m0 : gmap string record) l0 (m : gmap string record) d :
  (map_fold (Cleanup_entry now nm) (m0, l0) m).1 !! d =
    match m !! d with
    | Some r => swept now r
    | None => m0 !! d
    end.
Proof.
  revert d.
  apply (map_fold_weak_ind
           (λ acc m, ∀ d, acc.1 !! d =
                          match m !! d with Some r => swept now r | None => m0 !! d end)).
  - intros d. by rewrite lookup_empty.
  - clear m. intros i x m acc Hi IH d. rewrite Cleanup_entry_fst.
    destruct (decide (i = d)) as [->|Hne].
    + rewrite lookup_insert_eq.
      destruct (swept now x); by rewrite ?lookup_insert_eq, ?lookup_delete_eq.
    + rewrite (lookup_insert_ne m) by done.
      destruct (swept now x);
        rewrite ?lookup_insert_ne, ?lookup_delete_ne by done; apply IH.
Qed.

Lemma Cleanup_lookup now s d :
  ips (Cleanup now s).2 !! d = ips s !! d ≫= swept now.
Proof.
  unfold Cleanup. destruct (Nat.eqb _ 0) eqn:H0; simpl.
  - apply Nat.eqb_eq, map_size_empty_inv in H0. by rewrite H0, lookup_empty.
  - rewrite Cleanup_loop_lookup. by destruct (ips s !! d).
Qed.

Lemma Cleanup_report now s :
  (Cleanup now s).1 = if decide (ips s = ∅) then Some errNothingToDo else None.
Proof.
  unfold Cleanup. destruct (Nat.eqb _ 0) eqn:H0; simpl.
  - apply Nat.eqb_eq, map_size_empty_inv in H0. by rewrite decide_True.
  - apply Nat.eqb_neq in H0. rewrite decide_False; [done|].
    intros E. by apply H0, map_size_empty_iff.
Qed.

Lemma clear_expired_later now now2 slot :
  now ≤ now2 →
  clear_expired now2 (clear_expired now slot) = clear_expired now2 slot.
Proof.
  intros Hle. destruct slot as [b|]; simpl; [|done]. unfold Before.
  destruct (Z.ltb_spec (Expire b) now) as [H|H]; simpl; [|done].
  destruct (Z.ltb_spec (Expire b) now2); [done | lia].
Qed.

(** X4. Time passes between two runs: a run of [Cleanup] after an earlier
    run leaves the store that a single run at the later instant leaves. *)
Lemma Cleanup_later now now2 s :
  now ≤ now2 →
  ips (Cleanup now2 (Cleanup now s).2).2 = ips (Cleanup now2 s).2.
Proof.
  intros Hle. apply map_eq. intros d. rewrite !Cleanup_lookup.
  destruct (ips s !! d) as [r|]; [|done]. simpl.
  pose proof (clear_expired_later now now2 (A r) Hle) as HA.
  pose proof (clear_expired_later now now2 (AAAA r) Hle) as H6.
  unfold swept at 2.
  destruct (clear_expired now (A r)) as [a|] eqn:EA,
           (clear_expired now (AAAA r)) as [b|] eqn:E6;
    simpl; unfold swept; simpl; rewrite <- ?HA, <- ?H6; done.
Qed.

(** C6, as amended. Running [Cleanup] twice at the same instant leaves the
    store after the second run identical to the store after the first. The
    second run reports "nothing to do" exactly when the first run left the
    store empty; when a domain with an unexpired answer is left, the second
    run returns no error, like any run on a store that is not empty. *)
Theorem Cleanup_twice now s :
  let s1 := (Cleanup now s).2 in
  ips (Cleanup now s1).2 = ips s1
  ∧ (Cleanup now s1).1 = if decide (ips s1 = ∅) then Some errNothingToDo else None.
Proof.
  simpl. split; [|apply Cleanup_report].
  apply map_eq. intros d. rewrite Cleanup_lookup.
  destruct (ips (Cleanup now s).2 !! d) as [r'|] eqn:E; [|done].
  rewrite Cleanup_lookup in E. simpl.
  destruct (ips s !! d) as [r|]; [|done]. simpl in E.
  by apply swept_idemp in E.
Qed.

(** C6, as the claim states it, fails: with an unexpired answer cached, the
    first run leaves the store as it is, and the second run does not report
    that there was nothing to clean: it returns no error. *)
Lemma Cleanup_twice_report_counterexample :
  let s1 := (Cleanup 250 Ex.withA).2 in
  ips (Cleanup 250 s1).2 = ips s1
  ∧ (Cleanup 250 s1).1 = None
  ∧ (Cleanup 250 s1).1 ≠ Some errNothingToDo.
Proof. vm_compute. by repeat split. Qed.

(** C7. After a run of [Cleanup] at [now], every domain that is still in the
    store has an answer, for IPv4 or for IPv6, whose expiry has not passed at
    [now]; and no answer left in the store has expired. *)
Theorem Cleanup_leaves_live now s d r :
  ips (Cleanup now s).2 !! d = Some r →
  (∃ a, (A r = Some a ∨ AAAA r = Some a) ∧ live now a)
  ∧ (∀ a, A r = Some a ∨ AAAA r = Some a → live now a).
Proof.
  rewrite Cleanup_lookup. destruct (ips s !! d) as [r0|]; [|done]. simpl.
  unfold swept. intros H.
  assert (A r = clear_expired now (A r0) ∧ AAAA r = clear_expired now (AAAA r0))
    as [HA H6].
  { destruct (clear_expired now (A r0)), (clear_expired now (AAAA r0));
      by simplify_eq. }
  assert (∀ a, A r = Some a ∨ AAAA r = Some a → live now a) as Hlive.
  { intros a [Ha|Ha]; [rewrite HA in Ha | rewrite H6 in Ha];
      by apply clear_expired_live in Ha as [_ ?]. }
  split; [|done].
  destruct (A r) as [a|] eqn:EA; [by exists a; auto|].
  destruct (AAAA r) as [a|] eqn:E6; [by exists a; auto|].
  rewrite <- HA, <- H6 in H. done.
Qed.

Lemma Cleanup_leaves_live_witness :
  ips (Cleanup 250 Ex.withEmptyAAAA).2 !! "example.com." = Some Ex.recA
  ∧ (∃ a, (A Ex.recA = Some a ∨ AAAA Ex.recA = Some a) ∧ live 250 a)
  ∧ (∀ a, A Ex.recA = Some a ∨ AAAA Ex.recA = Some a → live 250 a).
Proof.
  split; [by vm_compute|].
  apply (Cleanup_leaves_live 250 Ex.withEmptyAAAA "example.com.").
  by vm_compute.
Defined.

(** ** The request identifiers *)

Lemma uint16_of_uint32 x : uint16 (x mod 2 ^ 32) = uint16 x.
Proof.
  unfold uint16. apply Z.mod_mod_divide. exists (2 ^ 16). reflexivity.
Qed.

Lemma newReqID_fst s : (newReqID s).1 = uint16 (reqID s + 1).
Proof. unfold newReqID. simpl. apply uint16_of_uint32. Qed.

(** C9. A call of [newReqID] returns a 16-bit number, one more modulo 2^16
    than the counter truncated to 16 bits, and the next call on the same
    server returns one more modulo 2^16 than this call returned: the
    identifiers of a server go up by one and wrap around at 2^16. *)
Theorem newReqID_successor s :
  let '(id1, s1) := newReqID s in
  let '(id2, _) := newReqID s1 in
  0 ≤ id1 < 2 ^ 16
  ∧ id1 = (uint16 (reqID s) + 1) mod 2 ^ 16
  ∧ id2 = (id1 + 1) mod 2 ^ 16.
Proof.
  pose proof (newReqID_fst s) as H1.
  destruct (newReqID s) as [id1 s1] eqn:E1. simpl in H1.
  pose proof (newReqID_fst s1) as H2.
  destruct (newReqID s1) as [id2 s2] eqn:E2. simpl in H2.
  assert (reqID s1 = (reqID s + 1) mod 2 ^ 32) as Hs1.
  { unfold newReqID in E1. by inversion E1. }
  subst id1 id2. unfold uint16. repeat split.
  - apply Z.mod_pos_bound. lia.
  - apply Z.mod_pos_bound. lia.
  - by rewrite Z.add_mod_idemp_l.
  - rewrite Hs1, Z.add_mod_idemp_l by lia.
    rewrite <- (Z.add_mod_idemp_l ((reqID s + 1) mod 2 ^ 32)) by lia.
    rewrite (Z.mod_mod_divide _ (2 ^ 32)); [|by exists (2 ^ 16)].
    by rewrite Z.add_mod_idemp_l.
Qed.

(** ** The merge of a reply *)

(** The paths through [updateIP]: the family of the request, and for A and
    AAAA whether the guard accepts the candidate. *)
Ltac updateIP_paths req :=
  unfold updateIP;
  destruct (reqType req =? TypeA);
    [destruct (isNewer _ _)
    |destruct (reqType req =? TypeAAAA); [destruct (isNewer _ _)|]];
  simpl.

Lemma updateIP_logged req ipRec s :
  ∃ e, logged (updateIP req ipRec s) = logged s ++ [e] ∧ severity e = Some AtInfo.
Proof. updateIP_paths req; eauto. Qed.

(** The guard looks at the sequence number only. *)
Lemma isNewer_sequence baseRec newRec addr :
  isNewer baseRec (mkIPRecord (requestSequence newRec) addr (Expire newRec))
  = isNewer baseRec newRec.
Proof. by destruct baseRec. Qed.

Lemma int16_negative_not_newer cur cand :
  int16 (requestSequence cand - requestSequence cur) < 0 →
  isNewer (Some cur) cand = false.
Proof. simpl. intros H. apply Z.ltb_ge. lia. Qed.

(** C2. When an answer with sequence n is cached for the domain and the
    family of a request, merging a candidate whose sequence m makes m - n
    negative as a 16-bit signed difference leaves the store as it was. The
    merge returns no error and writes one log line, at the info level. *)
Theorem updateIP_older_rejected req cand s cur :
  cached (reqType req) (domain req) s = Some cur →
  int16 (requestSequence cand - requestSequence cur) < 0 →
  ips (updateIP req cand s) = ips s
  ∧ cached (reqType req) (domain req) (updateIP req cand s) = Some cur
  ∧ ∃ e, logged (updateIP req cand s) = logged s ++ [e] ∧ severity e = Some AtInfo.
Proof.
  intros Hc Hneg.
  assert (ips (updateIP req cand s) = ips s) as Hips.
  { unfold cached in Hc. unfold updateIP.
    destruct (ips s !! domain req) as [r|]; [|done]. simpl in *.
    destruct (reqType req =? TypeA).
    - rewrite Hc, (int16_negative_not_newer cur cand Hneg). done.
    - destruct (reqType req =? TypeAAAA); [|done].
      rewrite Hc, isNewer_sequence, (int16_negative_not_newer cur cand Hneg).
      done. }
  split; [done|]. split; [|apply updateIP_logged].
  unfold cached in *. by rewrite Hips.
Qed.

Lemma updateIP_older_rejected_witness :
  cached (reqType Ex.reqA) (domain Ex.reqA) Ex.withA = Some (mkIPRecord 5 [Ex.v4] 300)
  ∧ int16 (requestSequence Ex.stale - 5) < 0
  ∧ ips (updateIP Ex.reqA Ex.stale Ex.withA) = ips Ex.withA.
Proof.
  split; [by vm_compute|]. split; [by vm_compute|].
  apply (updateIP_older_rejected Ex.reqA Ex.stale Ex.withA (mkIPRecord 5 [Ex.v4] 300));
    by vm_compute.
Defined.

Lemma only_IPv6len_Forall l :
  Forall (λ ip, length (Address_IP ip) = IPv6len) (only_IPv6len l).
Proof.
  unfold only_IPv6len. apply Forall_forall. intros ip Hin.
  by apply list_elem_of_filter in Hin as [? _].
Qed.

(** The AAAA slot of a domain after the merge of an AAAA reply: the reply
    with its addresses filtered when the guard accepts it, the slot as it was
    otherwise. *)
Lemma updateIP_AAAA_cached req ipRec s :
  reqType req = TypeAAAA →
  let filtered :=
    mkIPRecord (requestSequence ipRec) (only_IPv6len (IP ipRec)) (Expire ipRec) in
  cached TypeAAAA (domain req) (updateIP req ipRec s) =
    if isNewer (cached TypeAAAA (domain req) s) filtered
    then Some filtered
    else cached TypeAAAA (domain req) s.
Proof.
  intros Ht. unfold updateIP, cached. rewrite Ht. simpl.
  destruct (ips s !! domain req) as [r|] eqn:E; simpl.
  - destruct (isNewer (AAAA r) _); simpl; [by rewrite lookup_insert_eq|].
    by rewrite E.
  - by rewrite lookup_insert_eq.
Qed.

(** C8. When the merge of an AAAA reply installs an answer (the AAAA slot of
    the domain is not what it was), the answer installed is the reply with
    only its addresses of 16 bytes, in their order: each of its addresses has
    16 bytes, and no address of the reply of another length is in it. *)
Theorem updateIP_AAAA_only_IPv6len req ipRec s :
  reqType req = TypeAAAA →
  cached TypeAAAA (domain req) (updateIP req ipRec s)
    ≠ cached TypeAAAA (domain req) s →
  ∃ inst,
    cached TypeAAAA (domain req) (updateIP req ipRec s) = Some inst
    ∧ requestSequence inst = requestSequence ipRec
    ∧ Expire inst = Expire ipRec
    ∧ IP inst = only_IPv6len (IP ipRec)
    ∧ Forall (λ ip, length (Address_IP ip) = 16%nat) (IP inst)
    ∧ ∀ ip, ip ∈ IP ipRec → length (Address_IP ip) ≠ 16%nat → ip ∉ IP inst.
Proof.
  intros Ht Hne. rewrite (updateIP_AAAA_cached _ _ _ Ht) in *. simpl in *.
  destruct (isNewer _ _); [|done].
  eexists. split; [done|]. simpl. repeat split.
  - apply only_IPv6len_Forall.
  - intros ip _ Hlen Hin. unfold only_IPv6len in Hin.
    by apply list_elem_of_filter in Hin as [? _].
Qed.

Lemma updateIP_AAAA_only_IPv6len_witness :
  cached TypeAAAA "example.com." (updateIP Ex.reqAAAA Ex.mixed Ex.withEmptyAAAA)
  = Some (mkIPRecord 7 [Ex.v6] 400).
Proof.
  destruct (updateIP_AAAA_only_IPv6len Ex.reqAAAA Ex.mixed Ex.withEmptyAAAA)
    as (inst & Hc & Hseq & Hexp & HIP & _).
  - reflexivity.
  - by vm_compute.
  - change (domain Ex.reqAAAA) with "example.com." in Hc. rewrite Hc.
    destruct inst as [n l e]. simpl in *. rewrite Hseq, Hexp, HIP.
    by vm_compute.
Defined.

(** C10. Every merge of an A or AAAA reply publishes once, after the calls
    made before it, on the topic of its family: the domain followed by "4"
    for A and by "6" for AAAA. This does not depend on the guard: the topic is
    published also when the candidate is rejected and the store is left as it
    was. *)
Theorem updateIP_publishes req ipRec s :
  reqType req = TypeA ∨ reqType req = TypeAAAA →
  pub (updateIP req ipRec s) = pub s ++ [Publish (topic req)]
  ∧ (reqType req = TypeA → topic req = domain req +:+ "4")
  ∧ (reqType req = TypeAAAA → topic req = domain req +:+ "6").
Proof.
  intros Ht. unfold updateIP, topic.
  destruct Ht as [Ht|Ht]; rewrite Ht; simpl.
  - split; [|done]. by destruct (isNewer _ _).
  - split; [|done]. by destruct (isNewer _ _).
Qed.

Lemma updateIP_publishes_witness :
  ips (updateIP Ex.reqA Ex.stale Ex.withA) = ips Ex.withA
  ∧ pub (updateIP Ex.reqA Ex.stale Ex.withA)
    = pub Ex.withA ++ [Publish "example.com.4"].
Proof.
  split; [by vm_compute|].
  apply (updateIP_publishes Ex.reqA Ex.stale Ex.withA). by left.
Defined.

(** ** The lookup *)

(** A lookup returns addresses and no error, or no address and one of the two
    lookup errors. *)
Lemma findIPsForDomain_cases domain option s :
  (∃ ips, ips ≠ [] ∧ findIPsForDomain domain option s = (ips, None))
  ∨ findIPsForDomain domain option s = ([], Some ErrEmptyResponse)
  ∨ findIPsForDomain domain option s = ([], Some errRecordNotFound).
Proof.
  unfold findIPsForDomain.
  destruct (ips s !! domain) as [[a aaaa]|]; [|by auto]. simpl.
  destruct (IPv4Enable option), (IPv6Enable option);
    destruct a as [[? [|? ?] ?]|], aaaa as [[? [|? ?] ?]|];
    simpl; auto; left; eexists; (split; [|reflexivity]); done.
Qed.

(** C1. A lookup is a miss (the record-not-found condition) when no
    requested family has a cached answer; it is the empty-response condition
    when a requested family has a cached answer and the cached answers of the
    requested families hold no address; otherwise it returns, without an
    error, the addresses of the cached answers of the requested families, in
    the order IPv4 then IPv6, and no other. *)
Theorem findIPsForDomain_trichotomy domain option s :
  let answers := requested option domain s in
  let addrs := mjoin (IP <$> answers) in
  (answers = [] →
     findIPsForDomain domain option s = ([], Some errRecordNotFound))
  ∧ (answers ≠ [] → addrs = [] →
     findIPsForDomain domain option s = ([], Some ErrEmptyResponse))
  ∧ (addrs ≠ [] →
     findIPsForDomain domain option s = (Address_IP <$> addrs, None)).
Proof.
  unfold requested, findIPsForDomain.
  destruct (ips s !! domain) as [[a aaaa]|]; [|done]. simpl.
  destruct (IPv4Enable option), (IPv6Enable option);
    destruct a as [[? [|? ?] ?]|], aaaa as [[? [|? ?] ?]|];
    simpl; repeat split; intros; simplify_eq; try done;
    by rewrite ?app_nil_r.
Qed.

Lemma findIPsForDomain_trichotomy_witness :
  findIPsForDomain "example.org." Ex.both Ex.withEmptyAAAA
    = ([], Some errRecordNotFound)
  ∧ findIPsForDomain "example.com." Ex.only4 (updateIP Ex.reqAAAA Ex.mixed Ex.fresh)
    = ([], Some errRecordNotFound)
  ∧ findIPsForDomain "example.com." Ex.only6 Ex.withEmptyAAAA
    = ([], Some ErrEmptyResponse)
  ∧ findIPsForDomain "example.com." Ex.both (updateIP Ex.reqAAAA Ex.mixed Ex.withA)
    = ([Address_IP Ex.v4; Address_IP Ex.v6], None).
Proof.
  split; [|split; [|split]].
  - apply (findIPsForDomain_trichotomy "example.org." Ex.both Ex.withEmptyAAAA).
    by vm_compute.
  - apply (findIPsForDomain_trichotomy "example.com." Ex.only4
             (updateIP Ex.reqAAAA Ex.mixed Ex.fresh)).
    by vm_compute.
  - apply (findIPsForDomain_trichotomy "example.com." Ex.only6 Ex.withEmptyAAAA);
      by vm_compute.
  - apply (findIPsForDomain_trichotomy "example.com." Ex.both
             (updateIP Ex.reqAAAA Ex.mixed Ex.withA)).
    by vm_compute.
Defined.

(** ** The resolution loop *)

(** The traces of dispatched queries are extended by [sendQuery] only. *)
Lemma updateIP_dispatched req ipRec s :
  dispatched (updateIP req ipRec s) = dispatched s.
Proof. updateIP_paths req; done. Qed.

Lemma Cleanup_dispatched now s : dispatched (Cleanup now s).2 = dispatched s.
Proof. unfold Cleanup. by destruct (Nat.eqb _ _). Qed.

Create HintDb dispatched.
#[local] Hint Resolve updateIP_dispatched Cleanup_dispatched : dispatched.

Lemma happen_dispatched s e : dispatched (happen s e) = dispatched s.
Proof. destruct e as [r [] | now]; simpl; auto with dispatched. Qed.

Lemma arrivals_dispatched evs s : dispatched (foldl happen s evs) = dispatched s.
Proof.
  revert s. induction evs as [|e evs IH]; intros s; simpl; [done|].
  by rewrite IH, happen_dispatched.
Qed.

Lemma returned_cons r rounds ips err :
  returned rounds ips err → returned (r :: rounds) ips err.
Proof.
  intros [H|[H|(H & c & Hc & Hin)]]; [by left | by right; left |].
  right; right. split; [done|]. exists c. split; [done|].
  unfold cancellations in *. simpl. destruct (selected r); [by right | done].
Qed.

Section loop.
Context (domain fqdn : string) (option : IPOption).

Lemma QueryIP_loop_returned rounds s ips err s' :
  QueryIP_loop domain fqdn option rounds s = Some (ips, err, s') →
  returned rounds ips err ∧ dispatched s' = dispatched s.
Proof.
  revert s. induction rounds as [|r rounds IH]; intros s; simpl.
  - destruct (findIPsForDomain_cases fqdn option s) as [(l & Hl & ->)|[-> | ->]];
      simpl; intros; simplify_eq; (split; [|done]).
    + by left.
    + by right; left.
  - destruct (findIPsForDomain_cases fqdn option s) as [(l & Hl & ->)|[-> | ->]];
      simpl.
    + intros; simplify_eq. split; [by left | done].
    + intros; simplify_eq. split; [by right; left | done].
    + destruct r as [evs [c|]]; simpl.
      * intros; simplify_eq. split; [|apply arrivals_dispatched].
        right; right. split; [done|]. exists c. split; [done|].
        unfold cancellations. simpl. by left.
      * intros [H1 H2]%IH. split; [by apply returned_cons|].
        by rewrite H2, arrivals_dispatched.
Qed.

(** A call that is still blocked after its rounds returns the error of its
    context as soon as the select takes the case of the context. *)
Lemma QueryIP_loop_cancelled rounds evs c post s :
  QueryIP_loop domain fqdn option rounds s = None →
  ∃ s', QueryIP_loop domain fqdn option
          (rounds ++ mkRound evs (ctx_Done c) :: post) s
        = Some ([], Some (context_error c), s').
Proof.
  revert s. induction rounds as [|r rounds IH]; intros s; simpl.
  - destruct (findIPsForDomain fqdn option s) as [l e].
    destruct (bool_decide _); [done|]. eauto.
  - destruct (findIPsForDomain fqdn option s) as [l e].
    destruct (bool_decide _); [done|].
    destruct (selected r); [done|]. apply IH.
Qed.

End loop.

(** Whatever a call of [QueryIP] returns is one of the three results of its
    loop or of its first lookup. *)
Lemma QueryIP_returned now rounds domain clientIP option disableCache s ips err s' :
  QueryIP now rounds domain clientIP option disableCache s = Some (ips, err, s') →
  returned rounds ips err.
Proof.
  unfold QueryIP. destruct disableCache.
  - destruct (QueryIP_loop _ _ _ _ _) as [[[l1 e1] s1]|] eqn:E; [|done].
    intros; simplify_eq. by apply QueryIP_loop_returned in E as [? _].
  - destruct (findIPsForDomain_cases (Fqdn domain) option s)
      as [(l0 & Hl & ->)|[-> | ->]]; simpl.
    + intros; simplify_eq. by left.
    + intros; simplify_eq. by right; left.
    + destruct (QueryIP_loop _ _ _ _ _) as [[[l1 e1] s1]|] eqn:E; [|done].
      intros; simplify_eq. by apply QueryIP_loop_returned in E as [? _].
Qed.

(** C4. Whatever the dispatched queries do, and whenever they do it, a call
    of [QueryIP] that returns gives addresses and no error, or no address
    and the empty-response condition, or no address and the error with which
    its context ended; an error with which a query failed is not among them.
    And a call that is blocked with its lookup still a miss returns the error
    of its context, and no address, when the select takes the case of the
    context. *)
Theorem QueryIP_returns now rounds domain clientIP option disableCache s :
  (∀ ips err s',
     QueryIP now rounds domain clientIP option disableCache s = Some (ips, err, s') →
     returned rounds ips err)
  ∧ (∀ evs c post,
     QueryIP now rounds domain clientIP option disableCache s = None →
     ∃ s', QueryIP now (rounds ++ mkRound evs (ctx_Done c) :: post)
                   domain clientIP option disableCache s
           = Some ([], Some (context_error c), s')).
Proof.
  split.
  - intros l e s'. apply QueryIP_returned.
  - unfold QueryIP. intros evs c post.
    destruct (if disableCache then _ else _) as [[[l0 e0]|] s0]; [done|].
    destruct (QueryIP_loop _ _ _ rounds _) as [[[l1 e1] s1]|] eqn:E; [done|].
    intros _. eapply (QueryIP_loop_cancelled _ _ _ _ evs c post) in E as [s' ->].
    eauto.
Qed.

Lemma QueryIP_returns_witness :
  QueryIP 0 [] "example.com" None Ex.only4 false Ex.fresh = None
  ∧ (∃ s', QueryIP 0 ([] ++ Ex.failed_then_deadline :: [])
                   "example.com" None Ex.only4 false Ex.fresh
           = Some ([], Some (context_error DeadlineExceeded), s'))
  ∧ returned [Ex.failed_then_deadline] [] (Some (context_error DeadlineExceeded)).
Proof.
  split; [by vm_compute|]. split.
  - apply (QueryIP_returns 0 [] "example.com" None Ex.only4 false Ex.fresh).
    by vm_compute.
  - eapply (QueryIP_returns 0 [Ex.failed_then_deadline] "example.com" None
              Ex.only4 false Ex.fresh).
    vm_compute. reflexivity.
Defined.

(** ** The self-resolution guard *)

Lemma sendQuery_itself now domain clientIP option s :
  name s +:+ "." = "DOH//" +:+ domain →
  sendQuery now domain clientIP option s
  = WriteToLog (LogResolveItself (name s)) (WriteToLog (LogQuerying (name s) domain) s).
Proof.
  intros H. unfold sendQuery. simpl. by rewrite H, String.eqb_refl.
Qed.

(** C5, as amended. When the name of the server followed by a dot is "DOH//"
    followed by the fully-qualified domain, [sendQuery] returns before it
    draws a request identifier or dispatches a query, and writes the
    self-query to the log at the error level; it returns nothing to its
    caller. [QueryIP] goes on to its loop: it dispatches no query, and what it
    returns is what any call returns: cached addresses, the empty-response
    condition or the error of its context, never an error of the
    self-query. *)
Theorem sendQuery_resolve_itself now rounds domain clientIP option disableCache s :
  name s +:+ "." = "DOH//" +:+ Fqdn domain →
  let s1 := sendQuery now (Fqdn domain) clientIP option s in
  (dispatched s1 = dispatched s
   ∧ reqID s1 = reqID s
   ∧ ips s1 = ips s
   ∧ pub s1 = pub s
   ∧ logged s1 = logged s ++ [LogQuerying (name s) (Fqdn domain);
                              LogResolveItself (name s)]
   ∧ severity (LogResolveItself (name s)) = Some AtError)
  ∧ ∀ ips err s',
      QueryIP now rounds domain clientIP option disableCache s = Some (ips, err, s') →
      dispatched s' = dispatched s
      ∧ err ≠ Some errResolveItself
      ∧ returned rounds ips err.
Proof.
  intros Hself. simpl. rewrite (sendQuery_itself _ _ _ _ _ Hself). split.
  - simpl. by rewrite <- app_assoc.
  - intros l e s' HQ.
    assert (returned rounds l e) as Hret.
    { by apply QueryIP_returned in HQ. }
    split; [|split; [|done]].
    + unfold QueryIP in HQ. destruct disableCache.
      * assert (name (WriteToLog (LogCacheDisabled domain (name s)) s) +:+ "."
                = "DOH//" +:+ Fqdn domain) as Hself' by done.
        destruct (IPv4Enable option), (IPv6Enable option);
          rewrite sendQuery_itself in HQ by done;
          (destruct (QueryIP_loop _ _ _ _ _) as [[[l1 e1] s1]|] eqn:E; [|done]);
          apply QueryIP_loop_returned in E as [_ E]; by simplify_eq.
      * destruct (findIPsForDomain (Fqdn domain) option s) as [l0 e0].
        destruct (bool_decide _); [by simplify_eq|].
        destruct (IPv4Enable option), (IPv6Enable option);
          rewrite sendQuery_itself in HQ by done;
          (destruct (QueryIP_loop _ _ _ _ _) as [[[l1 e1] s1]|] eqn:E; [|done]);
          apply QueryIP_loop_returned in E as [_ E]; by simplify_eq.
    + destruct Hret as [[_ ->]|[[_ ->]|(_ & c & -> & _)]]; done.
Qed.

Lemma sendQuery_resolve_itself_witness :
  name Ex.fresh +:+ "." = "DOH//" +:+ Fqdn "dns.example"
  ∧ dispatched (sendQuery 0 (Fqdn "dns.example") None Ex.both Ex.fresh) = []
  ∧ logged (sendQuery 0 (Fqdn "dns.example") None Ex.both Ex.fresh)
    = [LogQuerying "DOH//dns.example" "dns.example.";
       LogResolveItself "DOH//dns.example"].
Proof.
  split; [reflexivity|].
  destruct (sendQuery_resolve_itself 0 [] "dns.example" None Ex.both false Ex.fresh)
    as [(Hd & _ & _ & _ & Hl & _) _]; [reflexivity|].
  by split.
Defined.

(** C5, as the claim states it, fails: the server for the endpoint
    dns.example is asked for dns.example, and the caller's deadline passes
    while the call waits. No query was dispatched, and the call returns the
    error of its context, not an error of the self-query. *)
Lemma QueryIP_resolve_itself_counterexample :
  name Ex.fresh +:+ "." = "DOH//" +:+ Fqdn "dns.example"
  ∧ ∃ s', QueryIP 0 [mkRound [] (ctx_Done DeadlineExceeded)]
                  "dns.example" None Ex.both false Ex.fresh
          = Some ([], Some (context_error DeadlineExceeded), s')
          ∧ dispatched s' = []
          ∧ Some (context_error DeadlineExceeded) ≠ Some errResolveItself.
Proof.
  split; [reflexivity|]. eexists. split; [vm_compute; reflexivity|]. by split.
Qed.

(** * Further properties *)

(** ** More on the sweeper *)

(** X1. A run of [Cleanup] at [now] clears, for every domain and family,
    exactly the answers that expired before [now]: an unexpired answer stays
    as it is and an expired one is gone. *)
Theorem Cleanup_cached now t d s :
  cached t d (Cleanup now s).2 = clear_expired now (cached t d s).
Proof.
  unfold cached. rewrite Cleanup_lookup.
  destruct (ips s !! d) as [r|]; [|done]. simpl. unfold swept.
  destruct (t =? TypeA), (t =? TypeAAAA);
    destruct (clear_expired now (A r)), (clear_expired now (AAAA r)); done.
Qed.

(** X2. [Cleanup] returns its "nothing to do" error exactly when the store is
    empty when it is called, and then it changes nothing; on any other store
    it returns no error. *)
Theorem Cleanup_nothing_to_do now s :
  (ips s = ∅ ↔ Cleanup now s = (Some errNothingToDo, s))
  ∧ (ips s ≠ ∅ ↔ (Cleanup now s).1 = None).
Proof.
  pose proof (Cleanup_report now s) as Hr. unfold Cleanup in *.
  destruct (Nat.eqb _ 0) eqn:H0; simpl in *.
  - apply Nat.eqb_eq, map_size_empty_inv in H0. split; split; try done.
  - apply Nat.eqb_neq in H0.
    assert (ips s ≠ ∅) by (intros E; by apply H0, map_size_empty_iff).
    split; split; try done.
Qed.

Lemma Cleanup_entry_snd now nm d r acc :
  (Cleanup_entry now nm d r acc).2 =
    match swept now r with
    | Some _ => acc.2
    | None => acc.2 ++ [LogCleanup nm d]
    end.
Proof.
  unfold Cleanup_entry, swept. simpl.
  by destruct (clear_expired now (A r)), (clear_expired now (AAAA r)).
Qed.

(** The log lines of the loop of [Cleanup]: one for each entry that the sweep
    deletes. *)
Lemma Cleanup_loop_logged now nm (m0 : gmap string record) l0 (m : gmap string record) :
  ∃ l, (map_fold (Cleanup_entry now nm) (m0, l0) m).2 = l0 ++ l
       ∧ NoDup l
       ∧ ∀ e, e ∈ l ↔ ∃ d r, e = LogCleanup nm d ∧ m !! d = Some r ∧ swept now r = None.
Proof.
  apply (map_fold_weak_ind
           (λ acc m, ∃ l, acc.2 = l0 ++ l ∧ NoDup l
              ∧ ∀ e, e ∈ l ↔ ∃ d r, e = LogCleanup nm d ∧ m !! d = Some r
                                    ∧ swept now r = None)).
  - exists []. simpl. rewrite app_nil_r. split; [done|]. split; [constructor|].
    intros e. split; [by intros ?%elem_of_nil|].
    intros (d & r & _ & H & _). by rewrite lookup_empty in H.
  - clear m. intros i x m acc Hi (l & Hl & Hnd & Hin).
    rewrite Cleanup_entry_snd. destruct (swept now x) as [x'|] eqn:Ex.
    + exists l. split; [done|]. split; [done|]. intros e. rewrite Hin.
      split; intros (d & r & He & Hd & Hr); exists d, r; (split; [done|]).
      * split; [|done]. rewrite lookup_insert_ne; [done|]. by intros ->; simplify_eq.
      * destruct (decide (i = d)) as [->|Hne].
        -- rewrite lookup_insert_eq in Hd. by simplify_eq.
        -- by rewrite lookup_insert_ne in Hd.
    + exists (l ++ [LogCleanup nm i]). split; [by rewrite Hl, app_assoc|]. split.
      * apply NoDup_app. split; [done|]. split; [|apply NoDup_singleton].
        intros e He ->%list_elem_of_singleton.
        apply Hin in He as (d & r & [= <-] & Hd & _). by simplify_eq.
      * intros e. rewrite elem_of_app, list_elem_of_singleton, Hin. split.
        -- intros [(d & r & He & Hd & Hr)| ->].
           ++ exists d, r. split; [done|]. split; [|done].
              rewrite lookup_insert_ne; [done|]. by intros ->; simplify_eq.
           ++ exists i, x. by rewrite lookup_insert_eq.
        -- intros (d & r & He & Hd & Hr). destruct (decide (i = d)) as [->|Hne].
           ++ by right.
           ++ left. exists d, r. by rewrite lookup_insert_ne in Hd.
Qed.

(** X3. A run of [Cleanup] touches the store and the log only: it publishes
    on no topic, draws no identifier and dispatches nothing. What it adds to
    the log is one line, naming the domain, for each domain that it deletes,
    and nothing else. *)
Theorem Cleanup_effects now s :
  let s' := (Cleanup now s).2 in
  pub s' = pub s ∧ reqID s' = reqID s ∧ dispatched s' = dispatched s
  ∧ name s' = name s ∧ dohURL s' = dohURL s
  ∧ ∃ l, logged s' = logged s ++ l
         ∧ NoDup l
         ∧ ∀ e, e ∈ l ↔ ∃ d, e = LogCleanup (name s) d
                             ∧ is_Some (ips s !! d) ∧ ips s' !! d = None.
Proof.
  simpl. repeat split; try (unfold Cleanup; by destruct (Nat.eqb _ 0)).
  assert (∀ d, (is_Some (ips s !! d) ∧ ips (Cleanup now s).2 !! d = None)
               ↔ ∃ r, ips s !! d = Some r ∧ swept now r = None) as Hdel.
  { intros d. rewrite Cleanup_lookup. destruct (ips s !! d) as [r|]; simpl.
    - split; [intros [_ ?]; eauto | intros (r' & [= <-] & ?); eauto].
    - split; [by intros [[] _] | by intros (? & ? & _)]. }
  unfold Cleanup in *. destruct (Nat.eqb _ 0) eqn:H0; simpl in *.
  - exists []. rewrite app_nil_r. split; [done|]. split; [constructor|].
    intros e. split; [by intros ?%elem_of_nil|].
    intros (d & _ & [r Hr] & _).
    apply Nat.eqb_eq, map_size_empty_inv in H0. by rewrite H0, lookup_empty in Hr.
  - destruct (Cleanup_loop_logged now (name s) (ips s) (logged s) (ips s))
      as (l & Hl & Hnd & Hin).
    exists l. split; [done|]. split; [done|]. intros e. rewrite Hin. split.
    + intros (d & r & -> & Hd & Hr). exists d. split; [done|].
      apply Hdel. eauto.
    + intros (d & -> & Hd). apply Hdel in Hd as (r & ? & ?). eauto.
Qed.

Lemma Cleanup_later_witness :
  250 ≤ 350
  ∧ ips (Cleanup 350 (Cleanup 250 Ex2.old).2).2 = ips (Cleanup 350 Ex2.old).2.
Proof. split; [lia|]. apply (Cleanup_later 250 350 Ex2.old). lia. Defined.

(** X5. Once every answer cached for a domain has expired, a sweep deletes
    the domain, and a lookup of it after the sweep is a miss whatever the
    families asked for; so is the lookup of a domain that was never
    cached. *)
Theorem findIPsForDomain_after_Cleanup now d option s :
  (∀ t a, cached t d s = Some a → Expire a < now) →
  ips (Cleanup now s).2 !! d = None
  ∧ findIPsForDomain d option (Cleanup now s).2 = ([], Some errRecordNotFound).
Proof.
  intros Hexp.
  assert (ips (Cleanup now s).2 !! d = None) as Hnone.
  { rewrite Cleanup_lookup. destruct (ips s !! d) as [r|] eqn:E; [|done]. simpl.
    unfold swept.
    assert (clear_expired now (A r) = None) as ->.
    { destruct (A r) as [a|] eqn:EA; [|done]. simpl.
      pose proof (Hexp TypeA a) as H. unfold cached in H. rewrite E in H.
      simpl in H. specialize (H EA). unfold Before.
      by destruct (Z.ltb_spec (Expire a) now); [|lia]. }
    assert (clear_expired now (AAAA r) = None) as ->.
    { destruct (AAAA r) as [a|] eqn:EA; [|done]. simpl.
      pose proof (Hexp TypeAAAA a) as H. unfold cached in H. rewrite E in H.
      simpl in H. specialize (H EA). unfold Before.
      by destruct (Z.ltb_spec (Expire a) now); [|lia]. }
    done. }
  split; [done|]. unfold findIPsForDomain. by rewrite Hnone.
Qed.

Lemma findIPsForDomain_after_Cleanup_witness :
  (∀ t a, cached t "old.example." Ex2.old = Some a → Expire a < 250)
  ∧ findIPsForDomain "old.example." Ex.both (Cleanup 250 Ex2.old).2
    = ([], Some errRecordNotFound).
Proof.
  assert (∀ t a, cached t "old.example." Ex2.old = Some a → Expire a < 250) as H.
  { intros t a. unfold cached.
    replace (ips Ex2.old !! "old.example.")
      with (Some (mkRecord (Some (mkIPRecord 9 [Ex.v4] 100)) None))
      by (by vm_compute).
    simpl. destruct (t =? TypeA); [by intros [= <-]|].
    by destruct (t =? TypeAAAA). }
  split; [done|].
  by apply (findIPsForDomain_after_Cleanup 250 "old.example." Ex.both Ex2.old).
Defined.

(** ** More on the merge of a reply *)

(** The store after [updateIP]: as it was, or with the record of the
    request's domain replaced by one that has the candidate in the slot of the
    request's family and the other slot as it was. *)
Lemma updateIP_ips req c s :
  let rec0 := default (mkRecord None None) (ips s !! domain req) in
  let filtered := mkIPRecord (requestSequence c) (only_IPv6len (IP c)) (Expire c) in
  ips (updateIP req c s) = ips s
  ∨ (reqType req = TypeA
     ∧ ips (updateIP req c s) = <[domain req := mkRecord (Some c) (AAAA rec0)]> (ips s))
  ∨ (reqType req = TypeAAAA
     ∧ ips (updateIP req c s)
       = <[domain req := mkRecord (A rec0) (Some filtered)]> (ips s)).
Proof.
  unfold updateIP.
  destruct (Z.eqb_spec (reqType req) TypeA);
    [destruct (isNewer _ _); simpl; auto|].
  destruct (Z.eqb_spec (reqType req) TypeAAAA);
    [destruct (isNewer _ _); simpl; auto | auto].
Qed.

(** X6. A merge changes at most one slot: the answer cached for any other
    domain, and for the request's domain the answer of any other family, is
    after [updateIP] what it was before. A request that is neither A nor AAAA
    changes no answer at all. *)
Theorem updateIP_frame req c s t d :
  t ≠ reqType req ∨ d ≠ domain req →
  cached t d (updateIP req c s) = cached t d s.
Proof.
  intros Hne. unfold cached.
  destruct (updateIP_ips req c s) as [->|[[Ht ->]|[Ht ->]]]; [done| |].
  - destruct (decide (d = domain req)) as [->|Hd];
      [|by rewrite lookup_insert_ne].
    rewrite lookup_insert_eq. simpl.
    assert (t ≠ TypeA) as Ht' by (destruct Hne; congruence).
    apply Z.eqb_neq in Ht'. rewrite Ht'.
    by destruct (ips s !! domain req), (t =? TypeAAAA).
  - destruct (decide (d = domain req)) as [->|Hd];
      [|by rewrite lookup_insert_ne].
    rewrite lookup_insert_eq. simpl.
    assert (t ≠ TypeAAAA) as Ht' by (destruct Hne; congruence).
    apply Z.eqb_neq in Ht'. rewrite Ht'.
    by destruct (ips s !! domain req), (t =? TypeA).
Qed.

Lemma updateIP_frame_witness :
  cached TypeAAAA "example.com." (updateIP Ex.reqA Ex2.answer Ex.withEmptyAAAA)
  = cached TypeAAAA "example.com." Ex.withEmptyAAAA.
Proof.
  apply (updateIP_frame Ex.reqA Ex2.answer Ex.withEmptyAAAA TypeAAAA "example.com.").
  left. by vm_compute.
Defined.

(** X7. In the slot of the request's domain and family, [updateIP] leaves
    the answer that was cached or puts the candidate: for an A request the
    candidate as it is, for an AAAA request the candidate with its 16-byte
    addresses only. It never empties the slot and never stores anything
    else. *)
Theorem updateIP_slot req c s :
  let t := reqType req in
  let d := domain req in
  cached t d (updateIP req c s) = cached t d s
  ∨ (t = TypeA ∧ cached t d (updateIP req c s) = Some c)
  ∨ (t = TypeAAAA
     ∧ cached t d (updateIP req c s)
       = Some (mkIPRecord (requestSequence c) (only_IPv6len (IP c)) (Expire c))).
Proof.
  simpl. unfold cached.
  destruct (updateIP_ips req c s) as [->|[[Ht ->]|[Ht ->]]]; [by left| |];
    rewrite lookup_insert_eq, Ht; simpl; auto.
Qed.

(** ** Invariants of the store *)

Lemma sendQuery_ips now domain clientIP option s :
  ips (sendQuery now domain clientIP option s) = ips s.
Proof.
  unfold sendQuery. simpl. destruct (String.eqb _ _); [done|].
  unfold buildReqMsgs. by destruct (IPv4Enable option), (IPv6Enable option).
Qed.

Section store_invariant.
(** A property of the records that sweeping keeps, and that a record has once
    an answer is put in one of its slots. *)
Context (P : record → Prop).
Hypothesis P_swept : ∀ now r r', swept now r = Some r' → P r → P r'.
Hypothesis P_A : ∀ c r,
  P r ∨ r = mkRecord None None → P (mkRecord (Some c) (AAAA r)).
Hypothesis P_AAAA : ∀ c r,
  P r ∨ r = mkRecord None None →
  P (mkRecord (A r)
       (Some (mkIPRecord (requestSequence c) (only_IPv6len (IP c)) (Expire c)))).

Lemma default_record_inv (m : gmap string record) d :
  map_Forall (λ _, P) m →
  P (default (mkRecord None None) (m !! d))
  ∨ default (mkRecord None None) (m !! d) = mkRecord None None.
Proof.
  intros Hm. destruct (m !! d) as [r|] eqn:E; simpl; [left | by right].
  by apply (Hm d).
Qed.

Lemma updateIP_inv req c s :
  map_Forall (λ _, P) (ips s) → map_Forall (λ _, P) (ips (updateIP req c s)).
Proof.
  intros Hs. pose proof (default_record_inv (ips s) (domain req) Hs) as H0.
  destruct (updateIP_ips req c s) as [->|[[Ht ->]|[Ht ->]]]; [done| |];
    apply map_Forall_insert_2; auto.
Qed.

Lemma Cleanup_inv now s :
  map_Forall (λ _, P) (ips s) → map_Forall (λ _, P) (ips (Cleanup now s).2).
Proof.
  intros Hs d r'. rewrite Cleanup_lookup.
  destruct (ips s !! d) as [r|] eqn:E; [|done]. simpl. intros Hr.
  eapply P_swept; [done|]. by apply (Hs d).
Qed.

Lemma happen_inv s e :
  map_Forall (λ _, P) (ips s) → map_Forall (λ _, P) (ips (happen s e)).
Proof.
  destruct e as [r [] | now]; simpl; auto using updateIP_inv, Cleanup_inv.
Qed.

Lemma arrivals_inv evs s :
  map_Forall (λ _, P) (ips s) → map_Forall (λ _, P) (ips (foldl happen s evs)).
Proof.
  revert s. induction evs as [|e evs IH]; intros s Hs; simpl; [done|].
  by apply IH, happen_inv.
Qed.

Lemma QueryIP_loop_inv domain fqdn option rounds s ips0 err s' :
  QueryIP_loop domain fqdn option rounds s = Some (ips0, err, s') →
  map_Forall (λ _, P) (ips s) → map_Forall (λ _, P) (ips s').
Proof.
  revert s. induction rounds as [|r rounds IH]; intros s; simpl;
    destruct (findIPsForDomain fqdn option s) as [l e];
    destruct (bool_decide _); try done; try by (intros; simplify_eq).
  destruct (selected r).
  - intros; simplify_eq. by apply arrivals_inv.
  - intros H Hs. eapply IH; [done|]. by apply arrivals_inv.
Qed.

Lemma QueryIP_inv now rounds domain clientIP option disableCache s ips0 err s' :
  QueryIP now rounds domain clientIP option disableCache s = Some (ips0, err, s') →
  map_Forall (λ _, P) (ips s) → map_Forall (λ _, P) (ips s').
Proof.
  unfold QueryIP. intros HQ Hs.
  destruct (if disableCache then _ else _) as [[[l0 e0]|] s0] eqn:E0.
  - simplify_eq. destruct disableCache; [done|].
    destruct (findIPsForDomain _ _ _), (bool_decide _); by simplify_eq.
  - assert (ips s0 = ips s) as Hs0.
    { destruct disableCache; [by simplify_eq|].
      destruct (findIPsForDomain _ _ _), (bool_decide _); by simplify_eq. }
    destruct (QueryIP_loop _ _ _ _ _) as [[[l1 e1] s1]|] eqn:E; [|done].
    apply QueryIP_loop_inv in E.
    + simplify_eq. by destruct (IPv4Enable option), (IPv6Enable option).
    + rewrite sendQuery_ips.
      destruct (IPv4Enable option), (IPv6Enable option); simpl; by rewrite Hs0.
Qed.

Lemma run_ops_inv ops s :
  map_Forall (λ _, P) (ips s) → map_Forall (λ _, P) (ips (foldl run_op s ops)).
Proof.
  revert s. induction ops as [|o ops IH]; intros s Hs; simpl; [done|].
  apply IH. destruct o as [e | now rounds d cip opt dc]; simpl.
  - by apply happen_inv.
  - destruct (QueryIP _ _ _ _ _ _ _) as [[[l e] s']|] eqn:E; [|done].
    by eapply QueryIP_inv.
Qed.

End store_invariant.

(** X8. The store never holds a record without an answer: in every state
    that a new server reaches through finished queries, sweeps and calls of
    [QueryIP], in any number and order, each domain in the store has an
    answer for IPv4 or for IPv6. *)
Theorem store_records_nonempty url prefix ops :
  map_Forall (λ _ r, record_nonempty r)
             (ips (foldl run_op (baseDOHNameServer url prefix) ops)).
Proof.
  apply run_ops_inv.
  - intros now r r'. unfold swept, record_nonempty.
    destruct (clear_expired now (A r)), (clear_expired now (AAAA r));
      intros; simplify_eq; simpl; auto.
  - intros c r _. by left.
  - intros c r _. by right.
  - apply map_Forall_empty.
Qed.

(** X9. No address of another length than 16 bytes is ever cached for IPv6:
    in every state that a new server reaches through finished queries, sweeps
    and calls of [QueryIP], each address of each cached AAAA answer has 16
    bytes. *)
Theorem store_AAAA_IPv6len url prefix ops :
  map_Forall (λ _ r, record_IPv6len r)
             (ips (foldl run_op (baseDOHNameServer url prefix) ops)).
Proof.
  apply run_ops_inv.
  - intros now r r' Hsw Hr a Ha. apply Hr. unfold swept in Hsw.
    destruct (clear_expired now (A r)) eqn:EA,
             (clear_expired now (AAAA r)) eqn:E6; simplify_eq; simpl in *;
      simplify_eq; by apply clear_expired_live in E6 as [? _].
  - intros c r [Hr| ->] a Ha; simpl in *; [by apply Hr | done].
  - intros c r _ a [= <-]. simpl. apply only_IPv6len_Forall.
  - apply map_Forall_empty.
Qed.

(** ** More on the request identifiers *)

Lemma uint16_add_uint32 x y : uint16 (x mod 2 ^ 32 + y) = uint16 (x + y).
Proof.
  unfold uint16. rewrite <- Z.add_mod_idemp_l by lia.
  rewrite (Z.mod_mod_divide _ (2 ^ 32)); [|by exists (2 ^ 16)].
  by rewrite Z.add_mod_idemp_l.
Qed.

Lemma newReqIDs_S n s :
  (newReqIDs (S n) s).1 = (newReqID s).1 :: (newReqIDs n (newReqID s).2).1.
Proof. simpl. by destruct (newReqIDs n _). Qed.

(** The identifier of the call number [i], counted from 0. *)
Lemma newReqIDs_lookup n s i id :
  (newReqIDs n s).1 !! i = Some id → id = uint16 (reqID s + 1 + Z.of_nat i) ∧ (i < n)%nat.
Proof.
  revert s i id. induction n as [|n IH]; intros s i id; [done|].
  rewrite newReqIDs_S, newReqID_fst. destruct i as [|i]; simpl.
  - intros [= <-]. split; [|lia]. f_equal. lia.
  - intros [-> Hi]%IH. split; [|lia]. simpl.
    rewrite <- Z.add_assoc, uint16_add_uint32. f_equal. lia.
Qed.

Lemma uint16_inj_window a i j :
  0 ≤ i < 2 ^ 16 → 0 ≤ j < 2 ^ 16 → uint16 (a + i) = uint16 (a + j) → i = j.
Proof.
  unfold uint16. intros Hi Hj H.
  assert ((i - j) mod 2 ^ 16 = 0) as H0.
  { replace (i - j) with ((a + i) - (a + j)) by lia.
    rewrite Zminus_mod, H, Z.sub_diag. done. }
  apply Z.mod_divide in H0 as [k Hk]; lia.
Qed.

(** X10. The identifiers that [newReqID] returns on a server are 16-bit
    numbers that go up by one with wrap-around, whatever the counter was, and
    any 65536 calls in a row return pairwise different identifiers: an
    identifier is used again only after 65536 calls. *)
Theorem newReqIDs_distinct n s :
  Z.of_nat n ≤ 2 ^ 16 →
  NoDup (newReqIDs n s).1
  ∧ ∀ i id, (newReqIDs n s).1 !! i = Some id →
            0 ≤ id < 2 ^ 16 ∧ id = (uint16 (reqID s) + 1 + Z.of_nat i) mod 2 ^ 16.
Proof.
  intros Hn. split.
  - apply NoDup_alt. intros i j id Hi Hj.
    apply newReqIDs_lookup in Hi as [-> Hi].
    apply newReqIDs_lookup in Hj as [Heq Hj].
    apply uint16_inj_window in Heq; lia.
  - intros i id [-> _]%newReqIDs_lookup. unfold uint16. split.
    + apply Z.mod_pos_bound. lia.
    + rewrite <- !Z.add_assoc. by rewrite Z.add_mod_idemp_l.
Qed.

Lemma newReqIDs_distinct_witness :
  Z.of_nat 3 ≤ 2 ^ 16
  ∧ NoDup (newReqIDs 3 (set_reqID 65534 Ex.fresh)).1
  ∧ (newReqIDs 3 (set_reqID 65534 Ex.fresh)).1 = [65535; 0; 1].
Proof.
  split; [by vm_compute|]. split; [|by vm_compute].
  apply (newReqIDs_distinct 3 (set_reqID 65534 Ex.fresh)). by vm_compute.
Defined.

(** ** More on the self-resolution guard *)

Lemma sendQuery_logged now domain clientIP option s :
  logged (sendQuery now domain clientIP option s)
  = logged s ++ LogQuerying (name s) domain
      :: (if String.eqb (name s +:+ ".") ("DOH//" +:+ domain)
          then [LogResolveItself (name s)] else []).
Proof.
  unfold sendQuery. simpl. destruct (String.eqb _ _); simpl.
  - by rewrite <- app_assoc.
  - unfold buildReqMsgs. by destruct (IPv4Enable option), (IPv6Enable option).
Qed.

(** X11. A server made with the prefix "DOH" for an endpoint refuses to
    query for one domain only: the host of its URL followed by a dot. For
    that domain [sendQuery] writes its error line; for any other domain, and
    so for the host when the URL names a port, it does not. *)
Theorem sendQuery_refuses_host url now domain clientIP option s :
  name s = name (baseDOHNameServer url "DOH") →
  logged (sendQuery now domain clientIP option s)
  = logged s ++ LogQuerying (name s) domain
      :: (if decide (domain = URL_Host url +:+ ".")
          then [LogResolveItself (name s)] else []).
Proof.
  intros Hn. rewrite sendQuery_logged, Hn. simpl.
  destruct (String.eqb_spec (("" +:+ URL_Host url) +:+ ".") ("" +:+ domain))
    as [H|H].
  - change (URL_Host url +:+ "." = domain) in H. by rewrite decide_True.
  - change (URL_Host url +:+ "." ≠ domain) in H. by rewrite decide_False.
Qed.

Lemma sendQuery_refuses_host_witness :
  logged (sendQuery 0 "dns.example." None Ex.both Ex.fresh)
  = [LogQuerying "DOH//dns.example" "dns.example.";
     LogResolveItself "DOH//dns.example"]
  ∧ logged (sendQuery 0 "example.com." None Ex.both Ex.fresh)
    = [LogQuerying "DOH//dns.example" "example.com."].
Proof.
  split.
  - apply (sendQuery_refuses_host
             (mkURL "dns.example" "https://dns.example/dns-query")
             0 "dns.example." None Ex.both Ex.fresh).
    reflexivity.
  - apply (sendQuery_refuses_host
             (mkURL "dns.example" "https://dns.example/dns-query")
             0 "example.com." None Ex.both Ex.fresh).
    reflexivity.
Defined.

(** X12. A server made with the prefix "DOHL" never refuses a query: the
    guard of [sendQuery] compares with "DOH//", so that for no domain, not
    even the host of its own URL, the error line is written. *)
Theorem sendQuery_local_never_refuses url now domain clientIP option s :
  name s = name (baseDOHNameServer url "DOHL") →
  logged (sendQuery now domain clientIP option s)
  = logged s ++ [LogQuerying (name s) domain].
Proof.
  intros Hn. rewrite sendQuery_logged, Hn. reflexivity.
Qed.

Lemma sendQuery_local_never_refuses_witness :
  logged (sendQuery 0 "dns.example." None Ex.both Ex2.local)
  = [LogQuerying "DOHL//dns.example" "dns.example."].
Proof.
  apply (sendQuery_local_never_refuses
           (mkURL "dns.example" "https://dns.example/dns-query")
           0 "dns.example." None Ex.both Ex2.local).
  reflexivity.
Defined.

(** ** More on the resolution call *)

(** X13. With the cache in use, a lookup that is not a miss ends the call at
    once: [QueryIP] returns what the lookup gave, whatever happens afterwards,
    and it has subscribed to nothing, drawn no identifier, dispatched no
    query and left the store as it was. *)
Theorem QueryIP_cache_hit now rounds domain clientIP option s ips0 err :
  findIPsForDomain (Fqdn domain) option s = (ips0, err) →
  err ≠ Some errRecordNotFound →
  ∃ s', QueryIP now rounds domain clientIP option false s = Some (ips0, err, s')
        ∧ ips s' = ips s ∧ pub s' = pub s
        ∧ dispatched s' = dispatched s ∧ reqID s' = reqID s.
Proof.
  intros Hf Herr. unfold QueryIP. rewrite Hf, bool_decide_eq_true_2 by done.
  eauto 10.
Qed.

Lemma QueryIP_cache_hit_witness :
  ∃ s', QueryIP 0 [] "example.com" None Ex.only4 false Ex.withA
        = Some ([Address_IP Ex.v4], None, s')
        ∧ ips s' = ips Ex.withA ∧ pub s' = pub Ex.withA
        ∧ dispatched s' = dispatched Ex.withA ∧ reqID s' = reqID Ex.withA.
Proof.
  apply (QueryIP_cache_hit 0 [] "example.com" None Ex.only4 Ex.withA);
    by vm_compute.
Defined.

Lemma findIPsForDomain_no_family d s :
  findIPsForDomain d (mkIPOption false false) s = ([], Some errRecordNotFound).
Proof. unfold findIPsForDomain. by destruct (ips s !! d). Qed.

Lemma QueryIP_loop_no_family domain fqdn rounds s :
  fst <$> QueryIP_loop domain fqdn (mkIPOption false false) rounds s =
    match cancellations rounds with
    | [] => None
    | c :: _ => Some ([], Some (context_error c))
    end.
Proof.
  revert s. induction rounds as [|r rounds IH]; intros s; simpl;
    rewrite findIPsForDomain_no_family;
    rewrite bool_decide_eq_false_2 by (intros H; by apply H); [done|].
  unfold cancellations. simpl. destruct (selected r); [done|]. apply IH.
Qed.

(** X14. A call of [QueryIP] that asks for neither family can end in one way
    only: every lookup is a miss, whatever is cached, so that the call returns
    the error of its context, and no address, when the select takes the case
    of the context, and is blocked until then. *)
Theorem QueryIP_no_family now rounds domain clientIP disableCache s :
  fst <$> QueryIP now rounds domain clientIP (mkIPOption false false) disableCache s =
    match cancellations rounds with
    | [] => None
    | c :: _ => Some ([], Some (context_error c))
    end.
Proof.
  rewrite <- (QueryIP_loop_no_family domain (Fqdn domain) rounds
                (sendQuery now (Fqdn domain) clientIP (mkIPOption false false)
                   (if disableCache
                    then WriteToLog (LogCacheDisabled domain (name s)) s else s))).
  unfold QueryIP. destruct disableCache; simpl.
  - by destruct (QueryIP_loop _ _ _ _ _) as [[[l e] s']|].
  - rewrite findIPsForDomain_no_family.
    rewrite bool_decide_eq_false_2 by (intros H; by apply H).
    by destruct (QueryIP_loop _ _ _ _ _) as [[[l e] s']|].
Qed.

Lemma open_subscriptions_app topic l1 l2 :
  open_subscriptions topic (l1 ++ l2)
  = open_subscriptions topic l1 + open_subscriptions topic l2.
Proof.
  induction l1 as [|[t|t|t] l1 IH]; simpl; lia.
Qed.

Lemma updateIP_open topic req c s :
  open_subscriptions topic (pub (updateIP req c s)) = open_subscriptions topic (pub s).
Proof.
  updateIP_paths req; rewrite ?open_subscriptions_app; simpl; lia.
Qed.

Lemma Cleanup_pub now s : pub (Cleanup now s).2 = pub s.
Proof. unfold Cleanup. by destruct (Nat.eqb _ _). Qed.

Lemma happen_open topic s e :
  open_subscriptions topic (pub (happen s e)) = open_subscriptions topic (pub s).
Proof.
  destruct e as [r [] | now]; simpl;
    auto using updateIP_open; by rewrite Cleanup_pub.
Qed.

Lemma arrivals_open topic evs s :
  open_subscriptions topic (pub (foldl happen s evs)) = open_subscriptions topic (pub s).
Proof.
  revert s. induction evs as [|e evs IH]; intros s; simpl; [done|].
  by rewrite IH, happen_open.
Qed.

Lemma sendQuery_pub now domain clientIP option s :
  pub (sendQuery now domain clientIP option s) = pub s.
Proof.
  unfold sendQuery. simpl. destruct (String.eqb _ _); [done|].
  unfold buildReqMsgs. by destruct (IPv4Enable option), (IPv6Enable option).
Qed.

Lemma QueryIP_loop_open topic domain fqdn option rounds s ips0 err s' :
  QueryIP_loop domain fqdn option rounds s = Some (ips0, err, s') →
  open_subscriptions topic (pub s') = open_subscriptions topic (pub s).
Proof.
  revert s. induction rounds as [|r rounds IH]; intros s; simpl;
    destruct (findIPsForDomain fqdn option s) as [l e];
    destruct (bool_decide _); try done; try by (intros; simplify_eq).
  destruct (selected r).
  - intros; simplify_eq. apply arrivals_open.
  - intros ->%IH. apply arrivals_open.
Qed.

(** X15. A call of [QueryIP] that returns leaves no subscription behind: for
    every topic, as many subscriptions are open when it returns as when it
    was called, whether it returns addresses, the empty-response condition or
    the error of its context. *)
Theorem QueryIP_closes_subscriptions
    now rounds domain clientIP option disableCache s ips0 err s' topic :
  QueryIP now rounds domain clientIP option disableCache s = Some (ips0, err, s') →
  open_subscriptions topic (pub s') = open_subscriptions topic (pub s).
Proof.
  unfold QueryIP. intros HQ.
  destruct (if disableCache then _ else _) as [[[l0 e0]|] s0] eqn:E0.
  - simplify_eq. destruct disableCache; [done|].
    destruct (findIPsForDomain _ _ _), (bool_decide _); by simplify_eq.
  - assert (pub s0 = pub s) as Hs0.
    { destruct disableCache; [by simplify_eq|].
      destruct (findIPsForDomain _ _ _), (bool_decide _); by simplify_eq. }
    destruct (QueryIP_loop _ _ _ _ _) as [[[l1 e1] s1]|] eqn:E; [|done].
    apply (QueryIP_loop_open topic) in E. rewrite sendQuery_pub in E.
    simplify_eq.
    destruct (IPv4Enable option), (IPv6Enable option); simpl in *;
      rewrite ?open_subscriptions_app in *; simpl in *; rewrite Hs0 in *; lia.
Qed.

Lemma QueryIP_closes_subscriptions_witness :
  open_subscriptions "example.com.4"
    (pub (run_op Ex.fresh
            (op_QueryIP 0 [Ex2.reply_then_done] "example.com" None Ex.both false)))
  = open_subscriptions "example.com.4" (pub Ex.fresh).
Proof.
  destruct (QueryIP 0 [Ex2.reply_then_done] "example.com" None Ex.both false Ex.fresh)
    as [[[l e] s']|] eqn:E; [|by vm_compute in E].
  unfold run_op. rewrite E.
  by apply (QueryIP_closes_subscriptions 0 [Ex2.reply_then_done] "example.com"
              None Ex.both false Ex.fresh l e s').
Defined.

(** What an event does to the store depends on the store only. *)
Lemma updateIP_ips_ext req c s1 s2 :
  ips s1 = ips s2 → ips (updateIP req c s1) = ips (updateIP req c s2).
Proof.
  intros H. unfold updateIP. rewrite <- H.
  destruct (reqType req =? TypeA);
    [destruct (isNewer _ _)
    |destruct (reqType req =? TypeAAAA); [destruct (isNewer _ _)|]];
    simpl; by rewrite ?H.
Qed.

Lemma Cleanup_ips_ext now s1 s2 :
  ips s1 = ips s2 → ips (Cleanup now s1).2 = ips (Cleanup now s2).2.
Proof.
  intros H. apply map_eq. intros d. by rewrite !Cleanup_lookup, H.
Qed.

Lemma happen_ips_ext e s1 s2 :
  ips s1 = ips s2 → ips (happen s1 e) = ips (happen s2 e).
Proof.
  destruct e as [r [] | now]; simpl; auto using updateIP_ips_ext, Cleanup_ips_ext.
Qed.

Lemma arrivals_ips_ext evs s1 s2 :
  ips s1 = ips s2 → ips (foldl happen s1 evs) = ips (foldl happen s2 evs).
Proof.
  revert s1 s2. induction evs as [|e evs IH]; intros s1 s2 H; simpl; [done|].
  by apply IH, happen_ips_ext.
Qed.

Lemma QueryIP_loop_store domain fqdn option rounds s ips0 err s' :
  QueryIP_loop domain fqdn option rounds s = Some (ips0, err, s') →
  ∃ evs, evs `prefix_of` events_of rounds ∧ ips s' = ips (foldl happen s evs).
Proof.
  revert s. induction rounds as [|r rounds IH]; intros s; simpl;
    destruct (findIPsForDomain fqdn option s) as [l e];
    destruct (bool_decide _); try done;
    try by (intros; simplify_eq; exists []; split; [apply prefix_nil | done]).
  unfold events_of. simpl. destruct (selected r).
  - intros; simplify_eq. exists (arrivals r). split; [|done].
    by apply prefix_app_r.
  - intros (evs & Hp & ->)%IH. exists (arrivals r ++ evs). split.
    + by apply prefix_app.
    + by rewrite foldl_app.
Qed.

(** X16. [QueryIP] itself writes nothing to the cache: the store when it
    returns is the store it was called with, changed by the events that
    happened while it waited, in their order, and by nothing else. A call
    during which no query finishes and no sweep runs returns with the store
    as it was. *)
Theorem QueryIP_store now rounds domain clientIP option disableCache s ips0 err s' :
  QueryIP now rounds domain clientIP option disableCache s = Some (ips0, err, s') →
  ∃ evs, evs `prefix_of` events_of rounds ∧ ips s' = ips (foldl happen s evs).
Proof.
  unfold QueryIP. intros HQ.
  destruct (if disableCache then _ else _) as [[[l0 e0]|] s0] eqn:E0.
  - exists []. split; [apply prefix_nil|]. simplify_eq.
    destruct disableCache; [done|].
    destruct (findIPsForDomain _ _ _), (bool_decide _); by simplify_eq.
  - assert (ips s0 = ips s) as Hs0.
    { destruct disableCache; [by simplify_eq|].
      destruct (findIPsForDomain _ _ _), (bool_decide _); by simplify_eq. }
    destruct (QueryIP_loop _ _ _ _ _) as [[[l1 e1] s1]|] eqn:E; [|done].
    apply QueryIP_loop_store in E as (evs & Hp & Hips).
    exists evs. split; [done|]. injection HQ as <- <- <-.
    transitivity (ips s1);
      [by destruct (IPv4Enable option), (IPv6Enable option)|].
    rewrite Hips. apply arrivals_ips_ext. rewrite sendQuery_ips.
    destruct (IPv4Enable option), (IPv6Enable option); simpl; by rewrite Hs0.
Qed.

Lemma QueryIP_store_witness :
  ∃ evs, evs `prefix_of` events_of [Ex.failed_then_deadline]
         ∧ ips (run_op Ex.fresh
                  (op_QueryIP 0 [Ex.failed_then_deadline] "example.com" None
                              Ex.only4 false))
           = ips (foldl happen Ex.fresh evs).
Proof.
  destruct (QueryIP 0 [Ex.failed_then_deadline] "example.com" None Ex.only4 false
              Ex.fresh) as [[[l e] s']|] eqn:E; [|by vm_compute in E].
  unfold run_op. rewrite E.
  by apply (QueryIP_store 0 [Ex.failed_then_deadline] "example.com" None
              Ex.only4 false Ex.fresh l e s').
Defined.

(** ** The goroutine of a query *)

(** X17. The goroutine of a query reaches the cache in one case only: the
    message was packed, the request was built, the exchange gave a response
    with status 200 whose body was read without error, and the body parsed;
    then it merges the parsed answer with [updateIP]. In every other case, a
    response with another status among them, it leaves the store and the
    subscribers untouched and writes one line to the log, at the error
    level. *)
Theorem query_goroutine_cases r pack newRequest_fails Do parseResponse s :
  let s' := query_goroutine r pack newRequest_fails Do parseResponse s in
  (∃ b resp rec,
     pack = Some b ∧ newRequest_fails = false ∧ Do = Some resp
     ∧ StatusCode resp = 200 ∧ Body_fails resp = false
     ∧ parseResponse (Body resp) = inl rec
     ∧ s' = updateIP r rec s)
  ∨ (ips s' = ips s ∧ pub s' = pub s
     ∧ ∃ e, logged s' = logged s ++ [e] ∧ severity e = Some AtError).
Proof.
  simpl. unfold query_goroutine, dohHTTPSContext.
  destruct pack as [b|]; [|right; simpl; eauto].
  destruct newRequest_fails; [right; simpl; eauto|].
  destruct Do as [resp|]; [|right; simpl; eauto].
  destruct (Z.eqb_spec (StatusCode resp) StatusOK) as [Hc|Hc]; simpl;
    [|right; simpl; eauto].
  destruct (Body_fails resp) eqn:Hb; [right; simpl; eauto|].
  destruct (parseResponse (Body resp)) as [rec|err] eqn:Hp;
    [|right; simpl; eauto].
  left. exists b, resp, rec. by repeat split.
Qed.
